(** * AutoCorrectMode: the buffering / debounce state machine

    A shallow embedding of [Windows_and_Linux/AutoCorrectMode.py].

    - Python [str] values are lists of Unicode code points.
    - The object's four mutable attributes, the table of [threading.Timer]
      objects it created, the wall clock and the chronological list of
      effects (log records, the toggle signal, provider calls, calls on the
      pynput controller, and the writes of the [is_correcting] guard inside
      a flush, which the listener thread reads) form one [World].
    - The collaborators are oracles: they answer each call from the history
      of effects so far, so that a provider or a keyboard controller may
      answer differently from one call to the next.
    - A call of [toggle] or [on_key_press] is one step, and so is each half
      of [trigger_correction] around the blocking call to the provider: the
      listener thread and the timer threads interleave at these boundaries
      only. *)

From Stdlib Require Import QArith Lqa.
From stdpp Require Import gmap strings list.

Close Scope Q_scope.
Open Scope nat_scope.

(** ** Python strings *)

Module PyStr.

(** A Python [str]: its code points, in order. *)
Definition str : Type := list N.

(** A literal whose characters are all below 256. *)
Fixpoint lit (s : string) : str :=
  match s with
  | EmptyString => []
  | String a rest => Ascii.N_of_ascii a :: lit rest
  end.

(** [c.isspace()] for one code point: the whitespace table of CPython. *)
Definition isspace (c : N) : bool :=
  ((9 <=? c) && (c <=? 13) || (28 <=? c) && (c <=? 32)
   || (c =? 133) || (c =? 160) || (c =? 5760)
   || (8192 <=? c) && (c <=? 8202)
   || (c =? 8232) || (c =? 8233) || (c =? 8239) || (c =? 8287)
   || (c =? 12288))%N.

Fixpoint lstrip (s : str) : str :=
  match s with
  | [] => []
  | c :: rest => if isspace c then lstrip rest else s
  end.

Definition rstrip (s : str) : str := reverse (lstrip (reverse s)).

(** [s.strip()] *)
Definition strip (s : str) : str := rstrip (lstrip s).

Fixpoint startswith (s p : str) {struct p} : bool :=
  match p, s with
  | [], _ => true
  | _ :: _, [] => false
  | a :: p', b :: s' => (a =? b)%N && startswith s' p'
  end.

(** [needle in hay] *)
Fixpoint contains (needle hay : str) : bool :=
  startswith hay needle ||
  match hay with
  | [] => false
  | _ :: rest => contains needle rest
  end.

(** [''.join(parts)] *)
Definition join (parts : list str) : str := concat parts.

(** Truthiness of a [str]. *)
Definition truthy (s : str) : bool :=
  match s with [] => false | _ :: _ => true end.

End PyStr.
Import PyStr.

(** ** Key events of the pynput listener *)

(** A key is either a [KeyCode], whose [char] attribute may be [None], or a
    member of the [Key] enumeration, which has no [char] attribute.  Only
    the three members the code names are told apart. *)
Inductive Key : Type :=
  | KeyCode (char : option str)
  | Key_space
  | Key_backspace
  | Key_enter
  | Key_other (name : string).

(** ** Effects on the collaborators *)

Inductive SinkCall : Type :=
  | Press (k : Key)
  | Release (k : Key)
  | TypeText (text : str).

Inductive Event : Type :=
  | LogInfo (msg : str)
  | LogError (msg : str)
  | LogDebug (msg : str)
  | ToggledSignal (flag : bool)
  | GetResponse (instruction prompt : str)
  | Sink (call : SinkCall)
  | GuardWrite (flag : bool).

(** What [get_response] does: raise, or return [None] or a [str]. *)
Inductive ProviderResult : Type :=
  | Raises (exn : str)
  | Returns (response : option str).

(** The collaborators.  [kbrd_new] and [kbrd] say whether building the
    controller, or one call on it, raises ([Some] message) or not. *)
Record Env : Type := {
  options : gmap string (gmap string str);
  get_response : list Event -> str -> str -> ProviderResult;
  kbrd_new : list Event -> option str;
  kbrd : list Event -> SinkCall -> option str
}.

(** ** Timers *)

Inductive TimerStatus : Type := Waiting | Cancelled | Fired.

(** A started [threading.Timer(interval, self.trigger_correction)]. *)
Record Timer : Type := {
  started_at : Q;
  interval : Q;
  status : TimerStatus
}.

Definition deadline (t : Timer) : Q := (started_at t + interval t)%Q.

Definition is_waiting (t : Timer) : bool :=
  match status t with Waiting => true | _ => false end.

Definition with_status (s : TimerStatus) (t : Timer) : Timer :=
  {| started_at := started_at t; interval := interval t; status := s |}.

(** [timer.cancel()]: only a timer that still waits is affected. *)
Definition cancel (t : Timer) : Timer :=
  if is_waiting t then with_status Cancelled t else t.

(** The end of [Timer.run], after the callback has returned. *)
Definition finish (t : Timer) : Timer :=
  if is_waiting t then with_status Fired t else t.

(** ** The state *)

Record World : Type := {
  enabled : bool;
  buffer : list str;
  debounce_timer : option nat;
  is_correcting : bool;
  timers : list Timer;
  clock : Q;
  trace : list Event
}.

Definition PAUSE_DELAY : Q := 2%Q.
Definition MIN_BUFFER_LENGTH : nat := 2.

(** [__init__], at time [t0]. *)
Definition init (t0 : Q) : World :=
  {| enabled := false; buffer := []; debounce_timer := None;
     is_correcting := false; timers := []; clock := t0; trace := [] |}.

Definition set_enabled (b : bool) (w : World) : World :=
  {| enabled := b; buffer := buffer w; debounce_timer := debounce_timer w;
     is_correcting := is_correcting w; timers := timers w; clock := clock w;
     trace := trace w |}.

Definition set_buffer (l : list str) (w : World) : World :=
  {| enabled := enabled w; buffer := l; debounce_timer := debounce_timer w;
     is_correcting := is_correcting w; timers := timers w; clock := clock w;
     trace := trace w |}.

Definition set_debounce_timer (d : option nat) (w : World) : World :=
  {| enabled := enabled w; buffer := buffer w; debounce_timer := d;
     is_correcting := is_correcting w; timers := timers w; clock := clock w;
     trace := trace w |}.

Definition set_is_correcting (b : bool) (w : World) : World :=
  {| enabled := enabled w; buffer := buffer w;
     debounce_timer := debounce_timer w; is_correcting := b;
     timers := timers w; clock := clock w; trace := trace w |}.

Definition set_timers (ts : list Timer) (w : World) : World :=
  {| enabled := enabled w; buffer := buffer w;
     debounce_timer := debounce_timer w; is_correcting := is_correcting w;
     timers := ts; clock := clock w; trace := trace w |}.

Definition set_clock (t : Q) (w : World) : World :=
  {| enabled := enabled w; buffer := buffer w;
     debounce_timer := debounce_timer w; is_correcting := is_correcting w;
     timers := timers w; clock := t; trace := trace w |}.

Definition set_trace (tr : list Event) (w : World) : World :=
  {| enabled := enabled w; buffer := buffer w;
     debounce_timer := debounce_timer w; is_correcting := is_correcting w;
     timers := timers w; clock := clock w; trace := tr |}.

(** One more effect, at the end of the history. *)
Definition emit (e : Event) (w : World) : World :=
  set_trace (trace w ++ [e]) w.

(** [if self.debounce_timer: self.debounce_timer.cancel();
     self.debounce_timer = None] *)
Definition reset_debounce (w : World) : World :=
  match debounce_timer w with
  | Some id => set_debounce_timer None (set_timers (alter cancel id (timers w)) w)
  | None => w
  end.

(** [self.debounce_timer = threading.Timer(self.PAUSE_DELAY, ...)] and
    [.start()]: the new timer gets the next free index. *)
Definition start_debounce (w : World) : World :=
  let t := {| started_at := clock w; interval := PAUSE_DELAY;
              status := Waiting |} in
  set_debounce_timer (Some (length (timers w))) (set_timers (timers w ++ [t]) w).

(** ** toggle *)

Definition toggle (w : World) : World :=
  let w := set_enabled (negb (enabled w)) w in
  let w := set_buffer [] w in
  let w := reset_debounce w in
  let w := emit (LogInfo (lit "Auto-correct mode " ++
                          (if enabled w then lit "ON" else lit "OFF"))) w in
  emit (ToggledSignal (enabled w)) w.

(** ** trigger_correction *)

Definition DEFAULT_PREFIX : str := lit "Proofread this:" ++ [10; 10]%N.
Definition ERROR_TEXT_INCOMPATIBLE : str := lit "ERROR_TEXT_INCOMPATIBLE".
Definition SPACE : str := lit " ".

(** The locals a flush holds while the provider works. *)
Record Request : Type := {
  original_text : str;
  buffer_len : nat;
  instruction : str;
  prompt : str
}.

(** [self.app.options.get('Proofread', {})] *)
Definition proofread_option (env : Env) : gmap string str :=
  default ∅ (options env !! "Proofread").

Definition proofread_prefix (env : Env) : str :=
  default DEFAULT_PREFIX (proofread_option env !! "prefix").

Definition proofread_instruction (env : Env) : str :=
  default [] (proofread_option env !! "instruction").

(** From the precondition to the built prompt: the snapshot of the buffer
    and its clearing.  [None] is the early [return]. *)
Definition snapshot_and_clear (env : Env) (w : World) : option (Request * World) :=
  if negb (bool_decide (buffer w ≠ [])) || negb (enabled w) then None
  else
    let original_text := join (buffer w) in
    let buffer_len := length (buffer w) in
    let w := set_buffer [] w in
    Some ({| original_text := original_text; buffer_len := buffer_len;
             instruction := proofread_instruction env;
             prompt := proofread_prefix env ++ original_text |}, w).

(** A step of the emission: the new world, and the exception if one was
    raised. *)
Definition Emission : Type := World -> World * option str.

Definition and_then (first next : Emission) : Emission :=
  fun w =>
    match first w with
    | (w', None) => next w'
    | (w', Some exn) => (w', Some exn)
    end.

Infix "&>" := and_then (at level 60, right associativity).

Definition skip : Emission := fun w => (w, None).

(** [pykeyboard.Controller()] *)
Definition new_controller (env : Env) : Emission :=
  fun w => (w, kbrd_new env (trace w)).

(** One call on the controller: it is issued, and may raise. *)
Definition sink_call (env : Env) (c : SinkCall) : Emission :=
  fun w => (emit (Sink c) w, kbrd env (trace w) c).

(** [for _ in range(n): kbrd.press(backspace); kbrd.release(backspace)] *)
Fixpoint erase (env : Env) (n : nat) : Emission :=
  match n with
  | O => skip
  | S n' =>
      sink_call env (Press Key_backspace) &>
      sink_call env (Release Key_backspace) &>
      erase env n'
  end.

(** The body of the [try]. *)
Definition emission (env : Env) (n : nat) (corrected_text : str) : Emission :=
  new_controller env &> erase env n &> sink_call env (TypeText corrected_text).

(** A write of the guard inside a flush. *)
Definition write_guard (b : bool) (w : World) : World :=
  emit (GuardWrite b) (set_is_correcting b w).

(** [self.is_correcting = True; try: ... except ...: log; finally: ... = False] *)
Definition replace_text (env : Env) (n : nat) (corrected_text : str)
    (w : World) : World :=
  let w := write_guard true w in
  let w := match emission env n corrected_text w with
           | (w', None) => w'
           | (w', Some exn) =>
               emit (LogError (lit "Auto-correct replacement error: " ++ exn)) w'
           end in
  write_guard false w.

(** From the provider's answer to the end of the function. *)
Definition evaluate (env : Env) (req : Request) (res : ProviderResult)
    (w : World) : World :=
  match res with
  | Raises exn => emit (LogError (lit "Auto-correct error: " ++ exn)) w
  | Returns None => w
  | Returns (Some response) =>
      if negb (truthy response) || contains ERROR_TEXT_INCOMPATIBLE response
      then w
      else
        let corrected_text := strip response in
        if bool_decide (corrected_text = original_text req) then w
        else
          let w := emit (LogDebug (lit "Auto-correct: " ++ [34%N] ++
                                   original_text req ++ [34%N] ++ lit " -> " ++
                                   [34%N] ++ corrected_text ++ [34%N])) w in
          replace_text env (buffer_len req) corrected_text w
  end.

(** The blocking call; it is issued on the world it finds. *)
Definition call_provider (env : Env) (req : Request) (w : World)
    : ProviderResult * World :=
  (get_response env (trace w) (instruction req) (prompt req),
   emit (GetResponse (instruction req) (prompt req)) w).

Definition trigger_correction (env : Env) (w : World) : World :=
  match snapshot_and_clear env w with
  | None => w
  | Some (req, w) =>
      let '(res, w) := call_provider env req w in
      evaluate env req res w
  end.

(** ** on_key_press *)

(** [hasattr(key, 'char') and key.char] *)
Definition key_char (key : Key) : option str :=
  match key with
  | KeyCode (Some c) => if truthy c then Some c else None
  | _ => None
  end.

(** [if self.buffer: self.buffer.pop()] *)
Definition pop (w : World) : World :=
  match buffer w with
  | [] => w
  | _ :: _ => set_buffer (removelast (buffer w)) w
  end.

Definition append (unit : str) (w : World) : World :=
  set_buffer (buffer w ++ [unit]) w.

(** The last statement: start the timer when the buffer is long enough. *)
Definition restart_debounce (w : World) : World :=
  if MIN_BUFFER_LENGTH <=? length (buffer w) then start_debounce w else w.

Definition on_key_press (env : Env) (key : Key) (w : World) : World :=
  if negb (enabled w) || is_correcting w then w
  else
    let w := reset_debounce w in
    match key_char key with
    | Some c => restart_debounce (append c w)
    | None =>
        match key with
        | Key_space => restart_debounce (append SPACE w)
        | Key_backspace => restart_debounce (pop w)
        | Key_enter =>
            let w := if MIN_BUFFER_LENGTH <=? length (buffer w)
                     then trigger_correction env w else w in
            set_buffer [] w
        | _ => set_buffer [] w
        end
    end.

(** ** Time *)

(** [Timer.run] of timer [id] once its interval has elapsed: the callback,
    then the timer is finished. *)
Definition expire (env : Env) (id : nat) (w : World) : World :=
  match timers w !! id with
  | Some t =>
      if is_waiting t && Qle_bool (deadline t) (clock w)
      then
        let w := trigger_correction env w in
        set_timers (alter finish id (timers w)) w
      else w
  | None => w
  end.

(** [dt] time-units pass; every timer that falls due runs, oldest first. *)
Definition wait (env : Env) (dt : Q) (w : World) : World :=
  let w := set_clock (clock w + dt)%Q w in
  foldl (fun w id => expire env id w) w (seq 0 (length (timers w))).

Inductive Action : Type :=
  | KeyPress (key : Key)
  | Toggle
  | Wait (dt : Q).

Definition step (env : Env) (w : World) (a : Action) : World :=
  match a with
  | KeyPress key => on_key_press env key w
  | Toggle => toggle w
  | Wait dt => wait env dt w
  end.

Definition run (env : Env) (actions : list Action) (w : World) : World :=
  foldl (step env) w actions.

(** The prompts sent to the provider, in order. *)
Definition provider_calls (tr : list Event) : list (str * str) :=
  omap (fun e => match e with
                 | GetResponse i p => Some (i, p)
                 | _ => None
                 end) tr.

(** The calls issued to the injection sink, in order. *)
Definition sink_calls (tr : list Event) : list SinkCall :=
  omap (fun e => match e with Sink c => Some c | _ => None end) tr.

Definition signals (tr : list Event) : list bool :=
  omap (fun e => match e with ToggledSignal b => Some b | _ => None end) tr.

Definition guard_writes (tr : list Event) : list bool :=
  omap (fun e => match e with GuardWrite b => Some b | _ => None end) tr.

(** ** Notions used by the properties *)

(** The calls a replacement of [n] units by [text] intends, in order. *)
Definition planned (n : nat) (text : str) : list SinkCall :=
  concat (replicate n [Press Key_backspace; Release Key_backspace])
  ++ [TypeText text].

(** Issue the calls of a list one after the other, up to the first that
    raises. *)
Fixpoint issue (env : Env) (calls : list SinkCall) : Emission :=
  match calls with
  | [] => skip
  | c :: rest => sink_call env c &> issue env rest
  end.

(** What a call leaves alone: everything but the guard and the history. *)
Definition frame (w w' : World) : Prop :=
  enabled w' = enabled w ∧ buffer w' = buffer w
  ∧ debounce_timer w' = debounce_timer w ∧ timers w' = timers w
  ∧ clock w' = clock w.

(** The locals of a flush of the buffer of [w]. *)
Definition request_of (env : Env) (w : World) : Request :=
  {| original_text := join (buffer w);
     buffer_len := length (buffer w);
     instruction := proofread_instruction env;
     prompt := proofread_prefix env ++ join (buffer w) |}.

(** The events of a replacement that issued the first [k] planned calls. *)
Definition replacement_events (n : nat) (text : str) (k : nat)
    (failure : list Event) : list Event :=
  GuardWrite true :: (Sink <$> take k (planned n text)) ++ failure
  ++ [GuardWrite false].

(** The three ways [evaluate] ends. *)
Inductive Verdict (req : Request) (w : World) : World -> Prop :=
  | Aborted : Verdict req w w
  | Failed msg : Verdict req w (emit (LogError msg) w)
  | Replaced text k failure msg :
      text ≠ original_text req →
      k ≤ length (planned (buffer_len req) text) →
      failure = [] ∨ (∃ m, failure = [LogError m]) →
      Verdict req w
        (set_is_correcting false
           (set_trace (trace w ++ LogDebug msg ::
                         replacement_events (buffer_len req) text k failure) w)).

(** The unit a key appends to the buffer, if it appends one. *)
Definition typed_unit (key : Key) : option str :=
  match key_char key with
  | Some c => Some c
  | None => match key with Key_space => Some SPACE | _ => None end
  end.

(** The five ways [on_key_press] ends. *)
Inductive Handled (env : Env) (key : Key) (w : World) : World -> Prop :=
  | Ignored :
      enabled w = false ∨ is_correcting w = true →
      Handled env key w w
  | Appended unit :
      enabled w = true → is_correcting w = false →
      typed_unit key = Some unit →
      Handled env key w (restart_debounce (append unit (reset_debounce w)))
  | Popped :
      enabled w = true → is_correcting w = false →
      key = Key_backspace →
      Handled env key w (restart_debounce (pop (reset_debounce w)))
  | Committed :
      enabled w = true → is_correcting w = false →
      key = Key_enter →
      MIN_BUFFER_LENGTH ≤ length (buffer w) →
      Handled env key w
        (set_buffer [] (trigger_correction env (reset_debounce w)))
  | Discarded :
      enabled w = true → is_correcting w = false →
      typed_unit key = None → key ≠ Key_backspace →
      (key = Key_enter → length (buffer w) < MIN_BUFFER_LENGTH) →
      Handled env key w (set_buffer [] (reset_debounce w)).

(** No timer waits. *)
Definition quiet (w : World) : Prop :=
  ∀ id t, timers w !! id = Some t → is_waiting t = false.

(** A timer that waits is the one [debounce_timer] refers to. *)
Definition single_live (w : World) : Prop :=
  ∀ id t, timers w !! id = Some t → is_waiting t = true →
    debounce_timer w = Some id.

(** A timer that waits is the one [debounce_timer] refers to, and the
    buffer it will flush has reached the threshold. *)
Definition timer_invariant (w : World) : Prop :=
  ∀ id t, timers w !! id = Some t → is_waiting t = true →
    debounce_timer w = Some id ∧ MIN_BUFFER_LENGTH ≤ length (buffer w).


(** ** Worlds and environments for the examples *)

(** No options file entry, a provider that always gives [answer], a
    controller that never raises. *)
Definition quiet_env (answer : ProviderResult) : Env :=
  {| options := ∅; get_response := fun _ _ _ => answer;
     kbrd_new := fun _ => None; kbrd := fun _ _ => None |}.

Definition key (s : string) : Key := KeyCode (Some (lit s)).

(** An enabled mode that has captured [units] and started no timer. *)
Definition capturing (units : list str) : World :=
  set_buffer units (set_enabled true (init 0%Q)).

(** A controller whose first call raises. *)
Definition faulty_env (answer : ProviderResult) : Env :=
  {| options := ∅; get_response := fun _ _ _ => answer;
     kbrd_new := fun _ => None;
     kbrd := fun _ _ => Some (lit "no display") |}.


(** ** Bursts of typing *)





(** ** Requests seen by the provider *)

(** A call whose instruction is the configured one and whose prompt is the
    configured prefix followed by at least [MIN_BUFFER_LENGTH] non-empty
    units. *)
Definition full_call (env : Env) (call : str * str) : Prop :=
  call.1 = proofread_instruction env
  ∧ ∃ units, MIN_BUFFER_LENGTH ≤ length units
      ∧ Forall (λ u, u ≠ []) units
      ∧ call.2 = proofread_prefix env ++ join units.

(** What every run keeps, to send only full calls. *)
Definition capture_invariant (env : Env) (w : World) : Prop :=
  timer_invariant w
  ∧ Forall (λ u, u ≠ []) (buffer w)
  ∧ Forall (full_call env) (provider_calls (trace w)).

(** The number of timers that wait. *)
Definition waiting_count (w : World) : nat :=
  length (filter (λ t, is_waiting t = true) (timers w)).

(** Read a history with the guard at [flag]: [None] if a call reaches the
    sink while the guard is clear, else the guard at the end. *)
Fixpoint guarded (flag : bool) (tr : list Event) : option bool :=
  match tr with
  | [] => Some flag
  | Sink _ :: rest => if flag then guarded flag rest else None
  | GuardWrite b :: rest => guarded b rest
  | _ :: rest => guarded flag rest
  end.

(** [w'] has the history of [w] and more, read from a clear guard back to a
    clear guard. *)
Definition extends_guarded (w w' : World) : Prop :=
  ∃ new, trace w' = trace w ++ new ∧ guarded false new = Some false.

(** * Proofs *)

(** ** The emission *)

Section Emission.

Variable env : Env.

Lemma set_trace_id w : set_trace (trace w) w = w.
Proof. by destruct w. Qed.

Lemma set_trace_twice tr tr' w : set_trace tr (set_trace tr' w) = set_trace tr w.
Proof. done. Qed.

Lemma and_then_eq (first next : Emission) w :
  (first &> next) w
  = match first w with
    | (w', None) => next w'
    | (w', Some exn) => (w', Some exn)
    end.
Proof. done. Qed.

Lemma issue_cons c rest w :
  issue env (c :: rest) w
  = match kbrd env (trace w) c with
    | Some exn => (emit (Sink c) w, Some exn)
    | None => issue env rest (emit (Sink c) w)
    end.
Proof.
  change (issue env (c :: rest)) with (sink_call env c &> issue env rest).
  rewrite and_then_eq. unfold sink_call. by destruct (kbrd env (trace w) c).
Qed.

Lemma issue_app a b w :
  issue env (a ++ b) w = (issue env a &> issue env b) w.
Proof.
  revert w; induction a as [|c a IH]; intros w.
  - done.
  - rewrite <- app_comm_cons, and_then_eq, !issue_cons.
    destruct (kbrd env (trace w) c); [done|].
    by rewrite IH, and_then_eq.
Qed.

Lemma erase_issue n w :
  erase env n w
  = issue env (concat (replicate n [Press Key_backspace; Release Key_backspace])) w.
Proof.
  revert w; induction n as [|n IH]; intros w; [done|].
  change (erase env (S n)) with
    (sink_call env (Press Key_backspace) &>
     sink_call env (Release Key_backspace) &> erase env n).
  change (concat (replicate (S n) [Press Key_backspace; Release Key_backspace]))
    with (Press Key_backspace :: Release Key_backspace ::
          concat (replicate n [Press Key_backspace; Release Key_backspace])).
  rewrite !issue_cons, !and_then_eq. unfold sink_call.
  destruct (kbrd env (trace w) _); [done|].
  rewrite and_then_eq.
  destruct (kbrd env (trace (emit _ w)) _); [done|].
  apply IH.
Qed.

Lemma emission_issue n text w :
  emission env n text w = (new_controller env &> issue env (planned n text)) w.
Proof.
  unfold emission, planned. rewrite !and_then_eq. unfold new_controller.
  destruct (kbrd_new env (trace w)); [done|].
  rewrite issue_app, !and_then_eq, erase_issue.
  destruct (issue env _ w) as [w' [e|]]; [done|].
  rewrite issue_cons. unfold sink_call, skip.
  by destruct (kbrd env (trace w') _).
Qed.

(** Whatever the controller does, the calls issued are an initial segment
    of the list, and the whole list when nothing was raised. *)
Lemma issue_spec calls w :
  ∃ k, k ≤ length calls
    ∧ (issue env calls w).1 = set_trace (trace w ++ (Sink <$> take k calls)) w
    ∧ ((issue env calls w).2 = None → k = length calls).
Proof.
  revert w; induction calls as [|c calls IH]; intros w.
  - exists 0. simpl. by rewrite app_nil_r, set_trace_id.
  - rewrite issue_cons.
    destruct (kbrd env (trace w) c) as [e|] eqn:Hc.
    + exists 1. simpl. split; [lia|]. done.
    + destruct (IH (emit (Sink c) w)) as (k & Hk & Hw & Hn).
      exists (S k). split; [simpl; lia|]. split.
      * rewrite Hw. unfold emit. simpl. rewrite set_trace_twice.
        by rewrite <- app_assoc.
      * intros H. by rewrite Hn.
Qed.

Lemma issue_ok calls w :
  (∀ h c, kbrd env h c = None) →
  issue env calls w = (set_trace (trace w ++ (Sink <$> calls)) w, None).
Proof.
  intros Hok. revert w; induction calls as [|c calls IH]; intros w.
  - simpl. unfold skip. by rewrite app_nil_r, set_trace_id.
  - rewrite issue_cons, Hok, IH. unfold emit; simpl.
    by rewrite set_trace_twice, <- app_assoc.
Qed.

Lemma emission_spec n text w :
  ∃ k, k ≤ length (planned n text)
    ∧ (emission env n text w).1
      = set_trace (trace w ++ (Sink <$> take k (planned n text))) w.
Proof.
  rewrite emission_issue, and_then_eq. unfold new_controller.
  destruct (kbrd_new env (trace w)).
  - exists 0. simpl. split; [lia|]. by rewrite app_nil_r, set_trace_id.
  - destruct (issue_spec (planned n text) w) as (k & Hk & Hw & _). eauto.
Qed.

Lemma emission_ok n text w :
  (∀ h, kbrd_new env h = None) → (∀ h c, kbrd env h c = None) →
  emission env n text w
  = (set_trace (trace w ++ (Sink <$> planned n text)) w, None).
Proof.
  intros Hn Hk. rewrite emission_issue, and_then_eq. unfold new_controller.
  rewrite Hn. by apply issue_ok.
Qed.

End Emission.

(** ** Projections of the history *)

Lemma sink_calls_app a b : sink_calls (a ++ b) = sink_calls a ++ sink_calls b.
Proof. apply omap_app. Qed.

Lemma provider_calls_app a b :
  provider_calls (a ++ b) = provider_calls a ++ provider_calls b.
Proof. apply omap_app. Qed.

Lemma guard_writes_app a b : guard_writes (a ++ b) = guard_writes a ++ guard_writes b.
Proof. apply omap_app. Qed.

Lemma signals_app a b : signals (a ++ b) = signals a ++ signals b.
Proof. apply omap_app. Qed.

Lemma sink_calls_Sink l : sink_calls (Sink <$> l) = l.
Proof.
  induction l as [|c l IH]; [done|].
  change (sink_calls (Sink <$> c :: l)) with (c :: sink_calls (Sink <$> l)).
  by rewrite IH.
Qed.

Lemma provider_calls_Sink l : provider_calls (Sink <$> l) = [].
Proof. by induction l. Qed.

Lemma guard_writes_Sink l : guard_writes (Sink <$> l) = [].
Proof. by induction l. Qed.

Lemma signals_Sink l : signals (Sink <$> l) = [].
Proof. by induction l. Qed.

(** ** The flush, step by step *)

Section Flush.

Variable env : Env.

Lemma replace_text_spec n text w :
  ∃ k failure,
    k ≤ length (planned n text)
    ∧ (failure = [] ∨ ∃ msg, failure = [LogError msg])
    ∧ replace_text env n text w
      = set_is_correcting false
          (set_trace (trace w ++ replacement_events n text k failure) w).
Proof.
  unfold replace_text, write_guard.
  destruct (emission_spec env n text (emit (GuardWrite true) (set_is_correcting true w)))
    as (k & Hk & Hw).
  destruct (emission env n text _) as [w' [e|]]; simpl in Hw; subst w'.
  - exists k, [LogError (lit "Auto-correct replacement error: " ++ e)].
    split; [done|]. split; [eauto|].
    unfold emit, set_is_correcting, set_trace, replacement_events. simpl.
    f_equal. rewrite <- !app_assoc. done.
  - exists k, []. split; [done|]. split; [eauto|].
    unfold emit, set_is_correcting, set_trace, replacement_events. simpl.
    f_equal. rewrite <- !app_assoc. done.
Qed.

Lemma replace_text_ok n text w :
  (∀ h, kbrd_new env h = None) → (∀ h c, kbrd env h c = None) →
  replace_text env n text w
  = set_is_correcting false
      (set_trace (trace w ++ replacement_events n text
                                (length (planned n text)) []) w).
Proof.
  intros Hn Hk. unfold replace_text, write_guard.
  rewrite emission_ok by done.
  unfold emit, set_is_correcting, set_trace, replacement_events. simpl.
  f_equal. rewrite firstn_all, <- !app_assoc. done.
Qed.

Lemma evaluate_verdict req res w : Verdict req w (evaluate env req res w).
Proof.
  unfold evaluate. destruct res as [e|[r|]]; try constructor.
  destruct (negb (truthy r) || contains ERROR_TEXT_INCOMPATIBLE r);
    [constructor|].
  case_bool_decide as Hneq; [constructor|].
  match goal with |- context [LogDebug ?m] => set (msg := m) end.
  destruct (replace_text_spec (buffer_len req) (strip r) (emit (LogDebug msg) w))
    as (k & failure & Hk & Hf & ->).
  replace (set_is_correcting false _) with
    (set_is_correcting false
       (set_trace (trace w ++ LogDebug msg ::
          replacement_events (buffer_len req) (strip r) k failure) w)).
  - by constructor.
  - unfold emit, set_is_correcting, set_trace. simpl. f_equal.
    by rewrite <- app_assoc.
Qed.

Lemma verdict_frame req w w' : Verdict req w w' → frame w w'.
Proof. by intros []. Qed.

Lemma verdict_guard req w w' :
  Verdict req w w' → is_correcting w = false → is_correcting w' = false.
Proof. by intros []. Qed.

Lemma verdict_trace req w w' :
  Verdict req w w' →
  ∃ new, trace w' = trace w ++ new ∧ provider_calls new = []
         ∧ signals new = [].
Proof.
  intros [|msg|text k failure msg _ _ Hf].
  - exists []. by rewrite app_nil_r.
  - by exists [LogError msg].
  - eexists. split; [done|]. unfold replacement_events.
    simpl. rewrite !provider_calls_app, !signals_app, provider_calls_Sink, signals_Sink.
    by destruct Hf as [->|[m ->]].
Qed.

Lemma snapshot_and_clear_Some w :
  buffer w ≠ [] → enabled w = true →
  snapshot_and_clear env w = Some (request_of env w, set_buffer [] w).
Proof.
  intros Hb He. unfold snapshot_and_clear.
  rewrite bool_decide_eq_true_2, He by done. done.
Qed.

Lemma snapshot_and_clear_None w :
  buffer w = [] ∨ enabled w = false → snapshot_and_clear env w = None.
Proof.
  intros [Hb|He]; unfold snapshot_and_clear.
  - rewrite bool_decide_eq_false_2; [done|]. by intros H.
  - rewrite He. by rewrite orb_true_r.
Qed.

(** A flush that does not pass its precondition changes nothing. *)
Lemma trigger_correction_noop w :
  buffer w = [] ∨ enabled w = false → trigger_correction env w = w.
Proof.
  intros H. unfold trigger_correction. by rewrite snapshot_and_clear_None.
Qed.

(** A flush that passes it: the clear, the call, the verdict. *)
Lemma trigger_correction_flush w :
  buffer w ≠ [] → enabled w = true →
  trigger_correction env w
  = evaluate env (request_of env w)
      (get_response env (trace w) (proofread_instruction env)
         (proofread_prefix env ++ join (buffer w)))
      (emit (GetResponse (proofread_instruction env)
               (proofread_prefix env ++ join (buffer w)))
         (set_buffer [] w)).
Proof.
  intros Hb He. unfold trigger_correction.
  by rewrite snapshot_and_clear_Some.
Qed.

Lemma precondition_dec w :
  (buffer w ≠ [] ∧ enabled w = true) ∨ (buffer w = [] ∨ enabled w = false).
Proof. destruct (buffer w), (enabled w); auto. Qed.

Lemma trigger_correction_frame w :
  let w' := trigger_correction env w in
  enabled w' = enabled w ∧ debounce_timer w' = debounce_timer w
  ∧ timers w' = timers w ∧ clock w' = clock w
  ∧ (buffer w' = [] ∨ w' = w)
  ∧ (is_correcting w = false → is_correcting w' = false).
Proof.
  destruct (precondition_dec w) as [[Hb He]|H].
  - cbv zeta. rewrite trigger_correction_flush by done.
    match goal with |- context [evaluate env ?r ?s ?v] =>
      pose proof (evaluate_verdict r s v) as HV end.
    destruct (verdict_frame _ _ _ HV) as (H1 & H2 & H3 & H4 & H5).
    rewrite H1, H2, H3, H4, H5. simpl. repeat split; auto.
    intros Hg. by apply (verdict_guard _ _ _ HV).
  - simpl. rewrite trigger_correction_noop by done. repeat split; auto.
Qed.

Lemma trigger_correction_calls w :
  provider_calls (trace (trigger_correction env w))
  = provider_calls (trace w)
    ++ (if bool_decide (buffer w ≠ []) && enabled w
        then [(proofread_instruction env,
               proofread_prefix env ++ join (buffer w))]
        else []).
Proof.
  destruct (precondition_dec w) as [[Hb He]|H].
  - rewrite trigger_correction_flush by done.
    match goal with |- context [evaluate env ?r ?s ?v] =>
      pose proof (evaluate_verdict r s v) as HV end.
    destruct (verdict_trace _ _ _ HV) as (new & -> & Hp & _).
    rewrite bool_decide_eq_true_2, He by done. simpl.
    rewrite !provider_calls_app, Hp, app_nil_r. done.
  - rewrite trigger_correction_noop by done.
    destruct H as [Hb|He].
    + rewrite bool_decide_eq_false_2, app_nil_r; [done|]. by intros ?.
    + by rewrite He, andb_false_r, app_nil_r.
Qed.

End Flush.

(** ** The key handler, case by case *)

Section Handler.

Variable env : Env.

Lemma reset_debounce_fields w :
  enabled (reset_debounce w) = enabled w
  ∧ buffer (reset_debounce w) = buffer w
  ∧ is_correcting (reset_debounce w) = is_correcting w
  ∧ clock (reset_debounce w) = clock w
  ∧ trace (reset_debounce w) = trace w
  ∧ debounce_timer (reset_debounce w) = None
  ∧ length (timers (reset_debounce w)) = length (timers w).
Proof.
  unfold reset_debounce. destruct (debounce_timer w) eqn:Hd; simpl;
    rewrite ?length_alter; auto 10.
Qed.

Lemma on_key_press_handled key w : Handled env key w (on_key_press env key w).
Proof.
  unfold on_key_press.
  destruct (enabled w) eqn:He; cbn [negb orb]; [|constructor; auto].
  destruct (is_correcting w) eqn:Hg; cbn [negb orb]; [constructor; auto|].
  cbv zeta.
  destruct (key_char key) as [c|] eqn:Hc.
  { apply Appended; auto. unfold typed_unit. by rewrite Hc. }
  destruct key as [ch| | | |name].
  - apply Discarded; auto; try done. unfold typed_unit. by rewrite Hc.
  - apply Appended; auto.
  - by apply Popped.
  - destruct (reset_debounce_fields w) as (_ & Hb & _). rewrite Hb.
    destruct (MIN_BUFFER_LENGTH <=? length (buffer w)) eqn:Hlen.
    + apply Committed; auto. by apply Nat.leb_le.
    + apply Discarded; auto; try done. intros _. by apply Nat.leb_gt.
  - apply Discarded; auto; done.
Qed.

End Handler.

(** ** Invariants of every run *)

Section Invariants.

Variable env : Env.

Lemma quiet_timer_invariant w : quiet w → timer_invariant w.
Proof. intros Hq id t Ht Hw. rewrite (Hq id t Ht) in Hw. done. Qed.

Lemma cancel_not_waiting t : is_waiting (cancel t) = false.
Proof. unfold cancel. by destruct (is_waiting t) eqn:H. Qed.

Lemma finish_not_waiting t : is_waiting (finish t) = false.
Proof. unfold finish. by destruct (is_waiting t) eqn:H. Qed.

Lemma timer_invariant_single_live w : timer_invariant w → single_live w.
Proof. intros Hinv id t Ht Hw. by destruct (Hinv id t Ht Hw). Qed.

Lemma reset_debounce_quiet w : single_live w → quiet (reset_debounce w).
Proof.
  intros Hinv id t. unfold reset_debounce.
  destruct (debounce_timer w) as [id0|] eqn:Hd; simpl.
  - destruct (decide (id0 = id)) as [->|Hne].
    + rewrite list_lookup_alter_eq. destruct (timers w !! id); [|done].
      intros [= <-]. apply cancel_not_waiting.
    + rewrite list_lookup_alter_ne by done. intros Ht.
      destruct (is_waiting t) eqn:Hw; [|done].
      pose proof (Hinv id t Ht Hw) as H. congruence.
  - intros Ht. destruct (is_waiting t) eqn:Hw; [|done].
    pose proof (Hinv id t Ht Hw) as H. congruence.
Qed.

Lemma restart_debounce_invariant w :
  quiet w → timer_invariant (restart_debounce w).
Proof.
  intros Hq. unfold restart_debounce.
  destruct (MIN_BUFFER_LENGTH <=? length (buffer w)) eqn:Hlen;
    [|by apply quiet_timer_invariant].
  apply Nat.leb_le in Hlen. intros id t. unfold start_debounce. simpl.
  intros Ht Hw. split; [|done].
  destruct (decide (id < length (timers w))) as [Hlt|Hge].
  - rewrite lookup_app_l in Ht by done. rewrite (Hq id t Ht) in Hw. done.
  - apply lookup_lt_Some in Ht. rewrite length_app in Ht. simpl in Ht.
    f_equal. lia.
Qed.

Lemma trigger_correction_quiet w : quiet w → quiet (trigger_correction env w).
Proof.
  intros Hq id t.
  destruct (trigger_correction_frame env w) as (_ & _ & Ht & _).
  rewrite Ht. apply Hq.
Qed.

Lemma on_key_press_invariant key w :
  timer_invariant w → timer_invariant (on_key_press env key w).
Proof.
  intros Hinv.
  pose proof (reset_debounce_quiet w (timer_invariant_single_live w Hinv)) as Hq.
  destruct (on_key_press_handled env key w); try done.
  - by apply restart_debounce_invariant.
  - apply restart_debounce_invariant. unfold pop.
    by destruct (buffer (reset_debounce w)).
  - apply quiet_timer_invariant.
    by apply (trigger_correction_quiet (reset_debounce w)).
  - by apply quiet_timer_invariant.
Qed.

Lemma toggle_quiet w : timer_invariant w → quiet (toggle w).
Proof.
  intros Hinv.
  apply (reset_debounce_quiet (set_buffer [] (set_enabled (negb (enabled w)) w))).
  intros id t Ht Hw. by destruct (Hinv id t Ht Hw).
Qed.

Lemma toggle_invariant w : timer_invariant w → timer_invariant (toggle w).
Proof. intros Hinv. by apply quiet_timer_invariant, toggle_quiet. Qed.

(** A timer that runs leaves no timer waiting. *)
Lemma expire_invariant id w :
  timer_invariant w → timer_invariant (expire env id w).
Proof.
  intros Hinv. unfold expire.
  destruct (timers w !! id) as [t|] eqn:Ht; [|done].
  destruct (is_waiting t) eqn:Hw; [|done]. simpl.
  destruct (Qle_bool (deadline t) (clock w)); [|done].
  apply quiet_timer_invariant. intros id' t'. simpl.
  destruct (trigger_correction_frame env w) as (_ & _ & -> & _).
  destruct (decide (id = id')) as [<-|Hne].
  - rewrite list_lookup_alter_eq, Ht. intros [= <-]. apply finish_not_waiting.
  - rewrite list_lookup_alter_ne by done. intros Ht'.
    destruct (is_waiting t') eqn:Hw'; [|done].
    destruct (Hinv id t Ht Hw) as [H1 _].
    destruct (Hinv id' t' Ht' Hw') as [H2 _]. congruence.
Qed.

(** Whatever holds across a change of the clock and across the run of one
    timer holds across [wait]. *)
Lemma wait_ind (P : World → Prop) dt w :
  (∀ w t, P w → P (set_clock t w)) →
  (∀ w id, P w → P (expire env id w)) →
  P w → P (wait env dt w).
Proof.
  intros Hclock Hexp Hw. unfold wait.
  generalize (seq 0 (length (timers (set_clock (clock w + dt) w)))).
  intros ids. generalize (Hclock w (clock w + dt)%Q Hw).
  generalize (set_clock (clock w + dt) w).
  induction ids as [|id ids IH]; intros w' Hw'; simpl; [done|].
  apply IH. by apply Hexp.
Qed.

Lemma wait_invariant dt w :
  timer_invariant w → timer_invariant (wait env dt w).
Proof.
  apply wait_ind; [done|]. intros w' id. apply expire_invariant.
Qed.

Lemma step_invariant a w :
  timer_invariant w → timer_invariant (step env w a).
Proof.
  destruct a; cbn [step].
  - apply on_key_press_invariant.
  - apply toggle_invariant.
  - apply wait_invariant.
Qed.

Lemma run_ind (P : World → Prop) actions w :
  (∀ w a, P w → P (step env w a)) → P w → P (run env actions w).
Proof.
  intros Hstep. unfold run. revert w.
  induction actions as [|a actions IH]; intros w Hw; simpl; [done|].
  apply IH. by apply Hstep.
Qed.

Lemma run_invariant actions w :
  timer_invariant w → timer_invariant (run env actions w).
Proof. apply run_ind. intros w' a. apply step_invariant. Qed.

Lemma init_quiet t0 : quiet (init t0).
Proof. by intros id t. Qed.

(** *** The guard is clear between calls *)

Lemma on_key_press_guard key w :
  is_correcting w = false → is_correcting (on_key_press env key w) = false.
Proof.
  intros Hg. destruct (reset_debounce_fields w) as (_ & _ & Hr & _).
  assert (∀ v, is_correcting (restart_debounce v) = is_correcting v) as Hrs.
  { intros v. unfold restart_debounce. by destruct (_ <=? _). }
  destruct (on_key_press_handled env key w); try done.
  - rewrite Hrs. simpl. congruence.
  - rewrite Hrs. unfold pop. destruct (buffer (reset_debounce w)); simpl; congruence.
  - simpl. apply trigger_correction_frame. congruence.
  - simpl. congruence.
Qed.

Lemma toggle_guard w : is_correcting (toggle w) = is_correcting w.
Proof.
  unfold toggle. simpl.
  by destruct (reset_debounce_fields
                 (set_buffer [] (set_enabled (negb (enabled w)) w)))
    as (_ & _ & -> & _).
Qed.

Lemma expire_guard id w :
  is_correcting w = false → is_correcting (expire env id w) = false.
Proof.
  intros Hg. unfold expire. destruct (timers w !! id) as [t|]; [|done].
  destruct (is_waiting t && Qle_bool (deadline t) (clock w)); [|done].
  simpl. by apply trigger_correction_frame.
Qed.

Lemma step_guard a w :
  is_correcting w = false → is_correcting (step env w a) = false.
Proof.
  destruct a; cbn [step].
  - apply on_key_press_guard.
  - by rewrite toggle_guard.
  - apply (wait_ind (λ w, is_correcting w = false)); [done|].
    intros w' id. apply expire_guard.
Qed.

Lemma run_guard actions w :
  is_correcting w = false → is_correcting (run env actions w) = false.
Proof.
  apply (run_ind (λ w, is_correcting w = false)).
  intros w' a. apply step_guard.
Qed.

End Invariants.

(** ** Strings *)

Example strip_example :
  strip ([32; 9]%N ++ lit "Hello  world" ++ [10; 13; 160; 8195]%N)
  = lit "Hello  world".
Proof. reflexivity. Qed.

Example contains_example :
  contains ERROR_TEXT_INCOMPATIBLE (lit "Sorry: ERROR_TEXT_INCOMPATIBLE.") = true
  ∧ contains ERROR_TEXT_INCOMPATIBLE (lit "ERROR_TEXT_INCOMPATIBL") = false
  ∧ contains [] [] = true.
Proof. done. Qed.

Lemma lstrip_spec s :
  ∃ spaces, s = spaces ++ lstrip s
    ∧ Forall (λ c, isspace c = true) spaces
    ∧ (∀ c rest, lstrip s = c :: rest → isspace c = false).
Proof.
  induction s as [|c s (spaces & Hs & Hall & Hhead)]; simpl.
  - exists []. by repeat split.
  - destruct (isspace c) eqn:Hc.
    + exists (c :: spaces). split; [by rewrite Hs at 1|].
      split; [by constructor|done].
    + exists []. split; [done|]. split; [done|]. by intros ? ? [= <- <-].
Qed.

Lemma startswith_spec s p : startswith s p = true ↔ ∃ rest, s = p ++ rest.
Proof.
  revert s; induction p as [|a p IH]; intros s; simpl.
  - split; [eauto|done].
  - destruct s as [|b s].
    + split; [done|]. by intros [rest ?].
    + rewrite andb_true_iff, N.eqb_eq, IH. split.
      * intros [-> [rest ->]]. eauto.
      * intros [rest [= -> ->]]. eauto.
Qed.

Lemma contains_spec needle hay :
  contains needle hay = true ↔ ∃ pre post, hay = pre ++ needle ++ post.
Proof.
  induction hay as [|c hay IH]; simpl.
  - rewrite orb_false_r, startswith_spec. split.
    + intros [rest ->]. by exists [], rest.
    + intros (pre & post & H). symmetry in H.
      apply app_eq_nil in H as [-> H]. apply app_eq_nil in H as [-> ->].
      by exists [].
  - rewrite orb_true_iff, startswith_spec, IH. split.
    + intros [[rest ->]|(pre & post & ->)].
      * by exists [], rest.
      * by exists (c :: pre), post.
    + intros ([|c' pre] & post & H).
      * left. exists post. done.
      * right. injection H as <- ->. eauto.
Qed.

(** * The properties *)

(** ** C3 *)

(** C3. A key event delivered while the mode is disabled or while the
    is-correcting guard is set is ignored: [on_key_press] returns the world
    it was given, so the buffer, the timers, the flags and the history of
    effects are all unchanged. *)
Theorem on_key_press_ignored (env : Env) (k : Key) (w : World) :
  enabled w = false ∨ is_correcting w = true →
  on_key_press env k w = w.
Proof.
  intros H. unfold on_key_press.
  destruct H as [-> | ->]; [done|]. by rewrite orb_true_r.
Qed.

Lemma on_key_press_ignored_witness :
  let w := set_is_correcting true (capturing [lit "a"; lit "b"]) in
  (enabled w = false ∨ is_correcting w = true)
  ∧ on_key_press (quiet_env (Returns None)) (key "c") w = w.
Proof.
  split; [by right|].
  apply (on_key_press_ignored (quiet_env (Returns None)) (key "c")). by right.
Defined.

(** ** C4 *)

(** C4. When a flush has passed its precondition and the provider raises,
    or returns nothing, or returns the empty string, or returns a text that
    contains the incompatible-content marker, the flush issues no call to
    the injection sink and never writes the guard; it ends with the buffer
    empty and the guard as it found it. *)
Theorem flush_aborts (env : Env) (w : World) :
  buffer w ≠ [] → enabled w = true →
  let res := get_response env (trace w) (proofread_instruction env)
               (proofread_prefix env ++ join (buffer w)) in
  (∃ exn, res = Raises exn) ∨ res = Returns None ∨ res = Returns (Some [])
  ∨ (∃ pre post, res = Returns (Some (pre ++ ERROR_TEXT_INCOMPATIBLE ++ post))) →
  let w' := trigger_correction env w in
  sink_calls (trace w') = sink_calls (trace w)
  ∧ guard_writes (trace w') = guard_writes (trace w)
  ∧ is_correcting w' = is_correcting w
  ∧ buffer w' = [].
Proof.
  intros Hb He res Hres w'. subst w'.
  rewrite trigger_correction_flush by done. fold res.
  assert (∀ v, evaluate env (request_of env w) res v = v
               ∨ ∃ msg, evaluate env (request_of env w) res v
                        = emit (LogError msg) v) as Hev.
  { intros v. destruct Hres as [[exn ->]|[->|[->|(pre & post & ->)]]]; simpl;
      eauto.
    left. replace (contains ERROR_TEXT_INCOMPATIBLE _) with true.
    - by rewrite orb_true_r.
    - symmetry. apply contains_spec. eauto. }
  match goal with |- context [evaluate env ?r res ?v] =>
    destruct (Hev v) as [->|[msg ->]] end; simpl;
    rewrite ?sink_calls_app, ?guard_writes_app; simpl;
    rewrite ?app_nil_r; done.
Qed.

Lemma flush_aborts_witness :
  let env := quiet_env (Returns (Some (lit "ERROR_TEXT_INCOMPATIBLE"))) in
  let w := capturing [lit "x"; lit "y"] in
  sink_calls (trace (trigger_correction env w)) = []
  ∧ guard_writes (trace (trigger_correction env w)) = []
  ∧ is_correcting (trigger_correction env w) = false
  ∧ buffer (trigger_correction env w) = [].
Proof.
  apply (flush_aborts
           (quiet_env (Returns (Some (lit "ERROR_TEXT_INCOMPATIBLE"))))
           (capturing [lit "x"; lit "y"])).
  - done.
  - reflexivity.
  - right. right. right. exists [], []. reflexivity.
Defined.

(** ** C5 *)

(** C5. When the provider's text, once trimmed, equals the snapshot of the
    buffer, the flush issues no call to the injection sink (and never
    writes the guard). *)
Theorem identity_correction_is_silent (env : Env) (w : World) (r : str) :
  buffer w ≠ [] → enabled w = true →
  get_response env (trace w) (proofread_instruction env)
    (proofread_prefix env ++ join (buffer w)) = Returns (Some r) →
  strip r = join (buffer w) →
  let w' := trigger_correction env w in
  sink_calls (trace w') = sink_calls (trace w)
  ∧ guard_writes (trace w') = guard_writes (trace w).
Proof.
  intros Hb He Hres Hsame w'. subst w'.
  rewrite trigger_correction_flush by done. rewrite Hres.
  unfold evaluate.
  destruct (negb (truthy r) || contains ERROR_TEXT_INCOMPATIBLE r).
  - simpl. rewrite sink_calls_app, guard_writes_app. simpl.
    by rewrite !app_nil_r.
  - rewrite bool_decide_eq_true_2 by done. simpl.
    rewrite sink_calls_app, guard_writes_app. simpl. by rewrite !app_nil_r.
Qed.

Lemma identity_correction_is_silent_witness :
  let env := quiet_env (Returns (Some (lit "  hello ") )) in
  let w := capturing [lit "h"; lit "e"; lit "l"; lit "l"; lit "o"] in
  sink_calls (trace (trigger_correction env w)) = []
  ∧ guard_writes (trace (trigger_correction env w)) = [].
Proof.
  apply (identity_correction_is_silent
           (quiet_env (Returns (Some (lit "  hello "))))
           (capturing [lit "h"; lit "e"; lit "l"; lit "l"; lit "o"])
           (lit "  hello ")).
  - done.
  - reflexivity.
  - reflexivity.
  - vm_compute. reflexivity.
Defined.

(** ** C6 *)

Lemma truthy_nonempty (r : str) : r ≠ [] → truthy r = true.
Proof. by destruct r. Qed.

(** C6. A flush that reaches the replacement, with a snapshot of [n] units
    and a trimmed text [c] that differs from the snapshot, issues backspace
    press/release pairs and then the type call, in that order: whatever the
    controller does, the calls issued are an initial segment of [n] pairs
    followed by one [type c]; when the controller raises nothing they are
    exactly the [n] pairs followed by the single [type c], between the write
    that sets the guard and the write that clears it. *)
Theorem replacement_emits (env : Env) (w : World) (r : str) :
  buffer w ≠ [] → enabled w = true →
  get_response env (trace w) (proofread_instruction env)
    (proofread_prefix env ++ join (buffer w)) = Returns (Some r) →
  r ≠ [] → contains ERROR_TEXT_INCOMPATIBLE r = false →
  strip r ≠ join (buffer w) →
  let w' := trigger_correction env w in
  let n := length (buffer w) in
  let c := strip r in
  (∃ k, sink_calls (trace w') = sink_calls (trace w) ++ take k (planned n c))
  ∧ ((∀ h, kbrd_new env h = None) → (∀ h call, kbrd env h call = None) →
     sink_calls (trace w')
     = sink_calls (trace w)
       ++ concat (replicate n [Press Key_backspace; Release Key_backspace])
       ++ [TypeText c]
     ∧ ∃ msg, trace w'
       = trace w
         ++ [GetResponse (proofread_instruction env)
               (proofread_prefix env ++ join (buffer w));
             LogDebug msg; GuardWrite true]
         ++ (Sink <$> planned n c) ++ [GuardWrite false]).
Proof.
  intros Hb He Hres Hr Hs Hneq w' n c. subst w' n c.
  rewrite trigger_correction_flush by done. rewrite Hres.
  unfold evaluate. rewrite truthy_nonempty, Hs by done. cbn [negb orb].
  rewrite bool_decide_eq_false_2 by done. cbn [request_of buffer_len original_text].
  split.
  - match goal with |- context [replace_text env ?n ?c ?v] =>
      destruct (replace_text_spec env n c v) as (k & failure & _ & Hf & ->) end.
    exists k. unfold replacement_events. simpl.
    rewrite !sink_calls_app. simpl.
    rewrite !sink_calls_app, sink_calls_Sink.
    destruct Hf as [->|[m ->]]; simpl; by rewrite !app_nil_r.
  - intros Hn Hk. rewrite replace_text_ok by done.
    unfold replacement_events. rewrite firstn_all. simpl. split.
    + rewrite !sink_calls_app. simpl. rewrite !sink_calls_app, sink_calls_Sink.
      simpl. by rewrite !app_nil_r.
    + eexists. rewrite <- !app_assoc. simpl. reflexivity.
Qed.

Lemma replacement_emits_witness :
  let env := quiet_env (Returns (Some (lit "Hello"))) in
  let w := capturing [lit "h"; lit "e"; lit "l"; lit "l"; lit "o"] in
  sink_calls (trace (trigger_correction env w))
  = [Press Key_backspace; Release Key_backspace;
     Press Key_backspace; Release Key_backspace;
     Press Key_backspace; Release Key_backspace;
     Press Key_backspace; Release Key_backspace;
     Press Key_backspace; Release Key_backspace;
     TypeText (lit "Hello")].
Proof.
  refine (proj1 (proj2 (replacement_emits
           (quiet_env (Returns (Some (lit "Hello"))))
           (capturing [lit "h"; lit "e"; lit "l"; lit "l"; lit "o"])
           (lit "Hello") _ _ _ _ _ _) _ _)).
  - done.
  - reflexivity.
  - reflexivity.
  - done.
  - vm_compute. reflexivity.
  - vm_compute. discriminate.
  - reflexivity.
  - reflexivity.
Defined.

(** A controller that raises at the first call: one call was issued, the
    failure was logged and the guard was cleared. *)
Example replacement_interrupted :
  let w' := trigger_correction (faulty_env (Returns (Some (lit "Hello"))))
              (capturing [lit "h"; lit "e"; lit "l"; lit "l"; lit "o"]) in
  sink_calls (trace w') = [Press Key_backspace]
  ∧ guard_writes (trace w') = [true; false]
  ∧ is_correcting w' = false
  ∧ last (trace w') = Some (GuardWrite false).
Proof. vm_compute. done. Qed.

(** ** C7 *)

(** C7. Every replacement attempt ends with the guard cleared, whether the
    controller accepted every call or raised at one of them: the last write
    of the guard is the clearing one.  And in every run, the guard is false
    when a flush returns. *)
Theorem guard_always_released (env : Env) :
  (∀ n text w,
     is_correcting (replace_text env n text w) = false
     ∧ last (guard_writes (trace (replace_text env n text w))) = Some false)
  ∧ (∀ actions t0,
       is_correcting (trigger_correction env (run env actions (init t0))) = false).
Proof.
  split.
  - intros n text w.
    destruct (replace_text_spec env n text w) as (k & failure & _ & Hf & ->).
    split; [done|]. simpl. unfold replacement_events.
    rewrite guard_writes_app. simpl.
    rewrite guard_writes_app, guard_writes_Sink, guard_writes_app. simpl.
    change (true :: guard_writes failure ++ [false]) with
      ((true :: guard_writes failure) ++ [false]).
    by rewrite app_assoc, last_snoc.
  - intros actions t0. apply trigger_correction_frame.
    by apply run_guard.
Qed.

(** ** C8 *)

Lemma alter_cancel_lookup (ts : list Timer) id t :
  alter cancel id ts !! id = Some t → is_waiting t = false.
Proof.
  rewrite list_lookup_alter_eq. destruct (ts !! id); [|done].
  intros [= <-]. apply cancel_not_waiting.
Qed.

(** While the mode is disabled, time passes without any effect. *)
Lemma wait_disabled (env : Env) dt w :
  enabled w = false →
  enabled (wait env dt w) = false
  ∧ trace (wait env dt w) = trace w
  ∧ buffer (wait env dt w) = buffer w.
Proof.
  intros He.
  apply (wait_ind env
           (λ v, enabled v = false ∧ trace v = trace w ∧ buffer v = buffer w));
    [done| |done].
  intros v id (Hv & Ht & Hb). unfold expire.
  destruct (timers v !! id) as [t|]; [|done].
  destruct (is_waiting t && Qle_bool (deadline t) (clock v)); [|done].
  rewrite trigger_correction_noop by auto. done.
Qed.

(** C8. [toggle] flips the enabled flag, empties the buffer, cancels the
    timer [debounce_timer] refers to and forgets it (in every run no timer
    at all waits afterwards), and appends to the history one log record and
    exactly one signal, which carries the new flag.  After a toggle that
    switched the mode off, a flush that still fires returns at once, and
    however long one waits nothing more happens. *)
Theorem toggle_resets (env : Env) (w : World) :
  (enabled (toggle w) = negb (enabled w)
   ∧ buffer (toggle w) = []
   ∧ debounce_timer (toggle w) = None
   ∧ (∀ id t, debounce_timer w = Some id → timers (toggle w) !! id = Some t →
        is_waiting t = false)
   ∧ (∃ msg, trace (toggle w)
             = trace w ++ [LogInfo msg; ToggledSignal (negb (enabled w))])
   ∧ signals (trace (toggle w)) = signals (trace w) ++ [negb (enabled w)])
  ∧ (∀ actions t0, quiet (toggle (run env actions (init t0))))
  ∧ (enabled w = true →
     trigger_correction env (toggle w) = toggle w
     ∧ ∀ dt, trace (wait env dt (toggle w)) = trace (toggle w)
             ∧ buffer (wait env dt (toggle w)) = []).
Proof.
  assert (enabled (toggle w) = negb (enabled w)) as Hen.
  { unfold toggle. simpl.
    by destruct (reset_debounce_fields
                   (set_buffer [] (set_enabled (negb (enabled w)) w)))
      as (-> & _). }
  assert (buffer (toggle w) = []) as Hbuf.
  { unfold toggle. simpl.
    by destruct (reset_debounce_fields
                   (set_buffer [] (set_enabled (negb (enabled w)) w)))
      as (_ & -> & _). }
  split; [|split].
  - split; [done|]. split; [done|].
    unfold toggle. cbv zeta.
    set (v := set_buffer [] (set_enabled (negb (enabled w)) w)).
    destruct (reset_debounce_fields v) as (H1 & H2 & H3 & H4 & H5 & H6 & H7).
    split; [done|]. split; [|split].
    + intros id t Hd. simpl. unfold reset_debounce. subst v. simpl. rewrite Hd.
      simpl. apply alter_cancel_lookup.
    + eexists. simpl. rewrite H5, H1. subst v. simpl.
      rewrite <- app_assoc. reflexivity.
    + simpl. rewrite !signals_app, H5, H1. subst v. simpl. by rewrite app_nil_r.
  - intros actions t0. apply toggle_quiet, run_invariant.
    apply quiet_timer_invariant, init_quiet.
  - intros He. rewrite He in Hen. split.
    + apply trigger_correction_noop. by right.
    + intros dt. destruct (wait_disabled env dt (toggle w) Hen) as (_ & -> & ->).
      done.
Qed.

Lemma toggle_resets_witness :
  let env := quiet_env (Returns (Some (lit "Hi"))) in
  let w := run env [Toggle; KeyPress (key "h"); KeyPress (key "i")] (init 0%Q) in
  enabled w = true
  ∧ (∃ t, timers w !! 0 = Some t ∧ is_waiting t = true)
  ∧ trigger_correction env (toggle w) = toggle w
  ∧ ∀ dt, trace (wait env dt (toggle w)) = trace (toggle w)
          ∧ buffer (wait env dt (toggle w)) = [].
Proof.
  split; [reflexivity|]. split; [eexists; split; reflexivity|].
  apply (toggle_resets (quiet_env (Returns (Some (lit "Hi"))))
           (run (quiet_env (Returns (Some (lit "Hi"))))
              [Toggle; KeyPress (key "h"); KeyPress (key "i")] (init 0%Q))).
  reflexivity.
Defined.

(** ** C10 *)

(** C10. When [on_key_press] or [toggle] returns, a timer that is pending
    is the one [debounce_timer] refers to and the buffer holds at least
    [MIN_BUFFER_LENGTH] units: both calls keep this invariant, which holds
    from [__init__] on along every run; and a key event that is not ignored
    leaves a timer behind only over a buffer of at least that length. *)
Theorem pending_timer_has_full_buffer (env : Env) :
  (∀ k w, timer_invariant w → timer_invariant (on_key_press env k w))
  ∧ (∀ w, timer_invariant w → timer_invariant (toggle w))
  ∧ (∀ actions t0, timer_invariant (run env actions (init t0)))
  ∧ (∀ k w id, enabled w = true → is_correcting w = false →
       debounce_timer (on_key_press env k w) = Some id →
       MIN_BUFFER_LENGTH ≤ length (buffer (on_key_press env k w))).
Proof.
  split; [|split; [|split]].
  - intros k w. apply on_key_press_invariant.
  - apply toggle_invariant.
  - intros actions t0. apply run_invariant, quiet_timer_invariant, init_quiet.
  - intros k w id He Hg.
    destruct (reset_debounce_fields w) as (_ & _ & _ & _ & _ & Hd & _).
    assert (∀ v, debounce_timer v = None →
                 debounce_timer (restart_debounce v) = Some id →
                 MIN_BUFFER_LENGTH ≤ length (buffer (restart_debounce v))) as Hrs.
    { intros v Hv. unfold restart_debounce.
      destruct (MIN_BUFFER_LENGTH <=? length (buffer v)) eqn:Hlen.
      - intros _. simpl. by apply Nat.leb_le.
      - congruence. }
    destruct (on_key_press_handled env k w) as [[?|?]| | | |]; try congruence.
    + by apply Hrs.
    + apply Hrs. unfold pop. by destruct (buffer (reset_debounce w)).
    + simpl.
      destruct (trigger_correction_frame env (reset_debounce w)) as (_ & -> & _).
      congruence.
    + simpl. congruence.
Qed.

Lemma pending_timer_has_full_buffer_witness :
  let env := quiet_env (Returns None) in
  let w := capturing [lit "a"] in
  timer_invariant w
  ∧ timer_invariant (on_key_press env (key "b") w)
  ∧ debounce_timer (on_key_press env (key "b") w) = Some 0
  ∧ MIN_BUFFER_LENGTH ≤ length (buffer (on_key_press env (key "b") w)).
Proof.
  assert (timer_invariant (capturing [lit "a"])) as Hinv.
  { intros id t Ht. destruct id; discriminate Ht. }
  split; [exact Hinv|]. split.
  - exact (proj1 (pending_timer_has_full_buffer (quiet_env (Returns None)))
             (key "b") (capturing [lit "a"]) Hinv).
  - split; [reflexivity|].
    apply (proj2 (proj2 (proj2
             (pending_timer_has_full_buffer (quiet_env (Returns None)))))
             (key "b") (capturing [lit "a"]) 0); reflexivity.
Defined.

(** ** C9 *)





(** ** C2 *)


Section Buffer.

Variable env : Env.

Lemma restart_debounce_buffer w : buffer (restart_debounce w) = buffer w.
Proof. unfold restart_debounce. by destruct (_ <=? _). Qed.





Lemma evaluate_buffer req res w : buffer (evaluate env req res w) = buffer w.
Proof. apply (verdict_frame req w), (evaluate_verdict env). Qed.

End Buffer.



(** ** C1 *)

Section Burst.

Variable env : Env.

Lemma fold_expire_idle ids w :
  (∀ id t, id ∈ ids → timers w !! id = Some t →
     is_waiting t && Qle_bool (deadline t) (clock w) = false) →
  foldl (λ w id, expire env id w) w ids = w.
Proof.
  induction ids as [|id ids IH]; intros Hidle; [done|]. simpl.
  assert (expire env id w = w) as ->.
  { unfold expire. destruct (timers w !! id) as [t|] eqn:Ht; [|done].
    rewrite (Hidle id t); [done|by left|done]. }
  apply IH. intros id' t Hin. apply Hidle. by right.
Qed.

(** No timer falls due: only the clock moves. *)
Lemma wait_idle dt w :
  (∀ id t, timers w !! id = Some t → is_waiting t = true →
     Qle_bool (deadline t) (clock w + dt) = false) →
  wait env dt w = set_clock (clock w + dt) w.
Proof.
  intros Hidle. unfold wait. apply fold_expire_idle.
  intros id t _ Ht. simpl in *.
  destruct (is_waiting t) eqn:Hw; [|done]. simpl. by apply (Hidle id).
Qed.




Lemma on_key_press_typed k unit w :
  enabled w = true → is_correcting w = false → typed_unit k = Some unit →
  on_key_press env k w = restart_debounce (append unit (reset_debounce w)).
Proof.
  intros He Hg. unfold on_key_press, typed_unit. rewrite He, Hg.
  cbn [negb orb]. cbv zeta.
  destruct (key_char k); [by intros [= ->]|].
  destruct k; try done. by intros [= <-].
Qed.

Lemma restart_debounce_fields w :
  enabled (restart_debounce w) = enabled w
  ∧ is_correcting (restart_debounce w) = is_correcting w
  ∧ buffer (restart_debounce w) = buffer w
  ∧ trace (restart_debounce w) = trace w.
Proof. unfold restart_debounce. by destruct (_ <=? _). Qed.



Lemma trigger_correction_buffer w :
  buffer w ≠ [] → enabled w = true → buffer (trigger_correction env w) = [].
Proof.
  intros Hb He. rewrite trigger_correction_flush by done.
  by rewrite evaluate_buffer.
Qed.


End Burst.




(** * Further properties of the handlers *)

(** ** The key handler, key by key *)

Section Keys.

Variable env : Env.

Lemma on_key_press_backspace w :
  enabled w = true → is_correcting w = false →
  on_key_press env Key_backspace w = restart_debounce (pop (reset_debounce w)).
Proof. intros He Hg. unfold on_key_press. by rewrite He, Hg. Qed.

Lemma on_key_press_enter w :
  enabled w = true → is_correcting w = false →
  on_key_press env Key_enter w
  = set_buffer []
      (if MIN_BUFFER_LENGTH <=? length (buffer w)
       then trigger_correction env (reset_debounce w)
       else reset_debounce w).
Proof.
  intros He Hg. unfold on_key_press. rewrite He, Hg. cbn [negb orb key_char].
  cbv zeta. by destruct (reset_debounce_fields w) as (_ & -> & _).
Qed.

Lemma on_key_press_other k w :
  enabled w = true → is_correcting w = false →
  typed_unit k = None → k ≠ Key_backspace → k ≠ Key_enter →
  on_key_press env k w = set_buffer [] (reset_debounce w).
Proof.
  intros He Hg Hu Hb Hn. unfold on_key_press. rewrite He, Hg.
  cbn [negb orb]. cbv zeta. unfold typed_unit in Hu.
  destruct (key_char k); [done|]. by destruct k.
Qed.

(** Where no timer waits, time passes without effect. *)
Lemma wait_quiet dt w : quiet w → wait env dt w = set_clock (clock w + dt) w.
Proof.
  intros Hq. apply wait_idle. intros id t Ht Hw.
  rewrite (Hq id t Ht) in Hw. done.
Qed.

Lemma set_buffer_quiet l w : quiet w → quiet (set_buffer l w).
Proof. done. Qed.

End Keys.

(** ** The commit key *)

(** X1. Enter on a buffer of at least [MIN_BUFFER_LENGTH] units (mode
    enabled, guard clear) flushes at once: the provider is called exactly
    once more, with the configured instruction and the prefix followed by
    the whole buffer; when the handler returns the buffer is empty,
    [debounce_timer] is [None], and no timer waits if at most the debounce
    timer waited before. *)
Theorem enter_commits (env : Env) (w : World) :
  enabled w = true → is_correcting w = false →
  MIN_BUFFER_LENGTH ≤ length (buffer w) →
  let w' := on_key_press env Key_enter w in
  provider_calls (trace w')
  = provider_calls (trace w)
    ++ [(proofread_instruction env, proofread_prefix env ++ join (buffer w))]
  ∧ buffer w' = [] ∧ debounce_timer w' = None
  ∧ (single_live w → quiet w').
Proof.
  intros He Hg Hlen w'. subst w'. rewrite on_key_press_enter by done.
  apply Nat.leb_le in Hlen as Hleb. rewrite Hleb.
  destruct (reset_debounce_fields w) as (H1 & H2 & _ & _ & H5 & H6 & _).
  destruct (trigger_correction_frame env (reset_debounce w))
    as (_ & Hd & Ht & _).
  split; [|split; [done|split]].
  - cbn [trace set_buffer]. rewrite trigger_correction_calls, H1, H2, H5, He.
    rewrite bool_decide_eq_true_2; [done|].
    intros Hnil. rewrite Hnil in Hlen. unfold MIN_BUFFER_LENGTH in Hlen.
    simpl in Hlen. lia.
  - cbn [debounce_timer set_buffer]. by rewrite Hd.
  - intros Hlive id t. cbn [timers set_buffer]. rewrite Ht.
    by apply reset_debounce_quiet.
Qed.

Lemma enter_commits_witness :
  let env := quiet_env (Returns None) in
  let w := capturing [lit "o"; lit "k"] in
  provider_calls (trace (on_key_press env Key_enter w))
  = [([], DEFAULT_PREFIX ++ lit "ok")]
  ∧ buffer (on_key_press env Key_enter w) = []
  ∧ debounce_timer (on_key_press env Key_enter w) = None.
Proof.
  pose proof (enter_commits (quiet_env (Returns None))
                (capturing [lit "o"; lit "k"]) eq_refl eq_refl) as H.
  destruct H as (H1 & H2 & H3 & _); [simpl; unfold MIN_BUFFER_LENGTH; lia|].
  repeat split; assumption.
Defined.

(** ** Keys that discard the buffer *)

(** X2. A key that is neither printable, nor space, nor backspace (an
    arrow, tab, a [KeyCode] whose [char] is [None] or empty), and Enter on a
    buffer shorter than [MIN_BUFFER_LENGTH], discard the buffer without a
    flush: the history is unchanged (no call to the provider, no call to
    the sink), the buffer is empty and [debounce_timer] is [None]; where at
    most the debounce timer waited, no timer waits afterwards and however
    long one waits, nothing is added to the history. *)
Theorem discarding_key_never_flushes (env : Env) (k : Key) (w : World) :
  enabled w = true → is_correcting w = false →
  typed_unit k = None → k ≠ Key_backspace →
  (k = Key_enter → length (buffer w) < MIN_BUFFER_LENGTH) →
  let w' := on_key_press env k w in
  trace w' = trace w ∧ buffer w' = [] ∧ debounce_timer w' = None
  ∧ (single_live w →
     quiet w' ∧ ∀ dt, trace (wait env dt w') = trace w
                      ∧ buffer (wait env dt w') = []).
Proof.
  intros He Hg Hu Hb Hshort w'.
  assert (w' = set_buffer [] (reset_debounce w)) as ->.
  { subst w'. destruct k as [c| | | |name];
      try (apply on_key_press_other; done).
    rewrite on_key_press_enter by done.
    specialize (Hshort eq_refl). apply Nat.leb_gt in Hshort.
    by rewrite Hshort. }
  destruct (reset_debounce_fields w) as (_ & _ & _ & _ & H5 & H6 & _).
  split; [done|]. split; [done|]. split; [done|].
  intros Hlive.
  assert (quiet (set_buffer [] (reset_debounce w))) as Hq
    by (apply set_buffer_quiet; by apply reset_debounce_quiet).
  split; [done|]. intros dt. by rewrite wait_quiet.
Qed.

Lemma discarding_key_never_flushes_witness :
  let env := quiet_env (Returns (Some (lit "Hi"))) in
  let w := run env [Toggle; KeyPress (key "h"); KeyPress (key "i")] (init 0%Q) in
  (∃ t, timers w !! 0 = Some t ∧ is_waiting t = true)
  ∧ trace (on_key_press env (KeyCode None) w) = trace w
  ∧ buffer (on_key_press env (KeyCode None) w) = []
  ∧ ∀ dt, trace (wait env dt (on_key_press env (KeyCode None) w)) = trace w.
Proof.
  split; [eexists; split; reflexivity|].
  pose proof (discarding_key_never_flushes
                (quiet_env (Returns (Some (lit "Hi")))) (KeyCode None)
                (run (quiet_env (Returns (Some (lit "Hi"))))
                   [Toggle; KeyPress (key "h"); KeyPress (key "i")] (init 0%Q))
                eq_refl eq_refl eq_refl) as H.
  destruct H as (H1 & H2 & _ & H4); [done|done|].
  split; [exact H1|]. split; [exact H2|].
  intros dt. apply H4.
  intros id t Ht Hw. destruct id as [|id]; [reflexivity|].
  destruct id; discriminate Ht.
Defined.

(** ** Backspace *)

Lemma removelast_snoc {A} (l : list A) x : removelast (l ++ [x]) = l.
Proof.
  induction l as [|y l IH]; [done|]. simpl.
  destruct (l ++ [x]) eqn:H; [by destruct l|]. by rewrite IH.
Qed.

(** X3. A backspace that is not ignored removes exactly the last unit of the
    buffer and nothing else of it; so a printable key or a space followed by
    a backspace leaves the buffer as it was. *)
Theorem backspace_removes_last_unit (env : Env) (w : World) :
  enabled w = true → is_correcting w = false →
  buffer (on_key_press env Key_backspace w) = removelast (buffer w)
  ∧ ∀ k unit, typed_unit k = Some unit →
      buffer (on_key_press env k w) = buffer w ++ [unit]
      ∧ buffer (on_key_press env Key_backspace (on_key_press env k w))
        = buffer w.
Proof.
  intros He Hg.
  assert (∀ v, enabled v = true → is_correcting v = false →
               buffer (on_key_press env Key_backspace v) = removelast (buffer v))
    as Hpop.
  { intros v Hev Hgv. rewrite on_key_press_backspace by done.
    rewrite restart_debounce_buffer. unfold pop.
    destruct (reset_debounce_fields v) as (_ & Hb & _). rewrite <- Hb.
    by destruct (buffer (reset_debounce v)) eqn:Hr; [rewrite Hr|]. }
  split; [by apply Hpop|]. intros k unit Hu.
  rewrite (on_key_press_typed env k unit w) by done.
  set (v := restart_debounce (append unit (reset_debounce w))).
  destruct (reset_debounce_fields w) as (H1 & H2 & H3 & _).
  destruct (restart_debounce_fields (append unit (reset_debounce w)))
    as (R1 & R2 & R3 & _).
  assert (buffer v = buffer w ++ [unit]) as Hv.
  { subst v. rewrite R3. unfold append. simpl. by rewrite H2. }
  split; [done|]. rewrite Hpop.
  - by rewrite Hv, removelast_snoc.
  - subst v. rewrite R1. simpl. by rewrite H1.
  - subst v. rewrite R2. simpl. by rewrite H3.
Qed.

Lemma backspace_removes_last_unit_witness :
  let env := quiet_env (Returns None) in
  let w := capturing [lit "a"; lit "b"; lit "c"] in
  buffer (on_key_press env Key_backspace w) = [lit "a"; lit "b"]
  ∧ buffer (on_key_press env Key_backspace (on_key_press env Key_space w))
    = buffer w.
Proof.
  pose proof (backspace_removes_last_unit (quiet_env (Returns None))
                (capturing [lit "a"; lit "b"; lit "c"]) eq_refl eq_refl) as H.
  destruct H as [H1 H2]. split; [exact H1|].
  apply (H2 Key_space SPACE). reflexivity.
Defined.

(** ** The debounce timer *)

Lemma restart_debounce_spec (v : World) :
  quiet v → debounce_timer v = None →
  let w' := restart_debounce v in
  (MIN_BUFFER_LENGTH ≤ length (buffer v) →
     debounce_timer w' = Some (length (timers v))
     ∧ timers w' !! length (timers v)
       = Some {| started_at := clock v; interval := PAUSE_DELAY;
                 status := Waiting |}
     ∧ ∀ id t, timers w' !! id = Some t → is_waiting t = true →
         id = length (timers v))
  ∧ (length (buffer v) < MIN_BUFFER_LENGTH → debounce_timer w' = None ∧ quiet w').
Proof.
  intros Hq Hd w'. subst w'. unfold restart_debounce. split.
  - intros Hlen. apply Nat.leb_le in Hlen as ->. unfold start_debounce. simpl.
    split; [done|]. split; [by apply list_lookup_middle|].
    intros id t Ht Hw.
    destruct (decide (id < length (timers v))) as [Hlt|Hge].
    + rewrite lookup_app_l in Ht by done. rewrite (Hq id t Ht) in Hw. done.
    + apply lookup_lt_Some in Ht. rewrite length_app in Ht. simpl in Ht. lia.
  - intros Hlen. apply Nat.leb_gt in Hlen as ->. done.
Qed.

Lemma pop_fields (v : World) :
  timers (pop v) = timers v ∧ debounce_timer (pop v) = debounce_timer v
  ∧ clock (pop v) = clock v.
Proof. unfold pop. by destruct (buffer v). Qed.

(** X4. A printable key, a space or a backspace that is not ignored cancels
    the previous timer and decides on the buffer it leaves: with at least
    [MIN_BUFFER_LENGTH] units, [debounce_timer] is a new timer started at
    the time of this key with interval [PAUSE_DELAY], and it is the only
    timer that waits; with fewer units, [debounce_timer] is [None] and no
    timer waits (where at most the debounce timer waited before). *)
Theorem debounce_restarts_at_last_key (env : Env) (k : Key) (w : World) :
  single_live w → enabled w = true → is_correcting w = false →
  is_Some (typed_unit k) ∨ k = Key_backspace →
  let w' := on_key_press env k w in
  (MIN_BUFFER_LENGTH ≤ length (buffer w') →
     debounce_timer w' = Some (length (timers w))
     ∧ timers w' !! length (timers w)
       = Some {| started_at := clock w; interval := PAUSE_DELAY;
                 status := Waiting |}
     ∧ ∀ id t, timers w' !! id = Some t → is_waiting t = true →
         id = length (timers w))
  ∧ (length (buffer w') < MIN_BUFFER_LENGTH →
     debounce_timer w' = None ∧ quiet w').
Proof.
  intros Hlive He Hg Hk w'.
  pose proof (reset_debounce_quiet w Hlive) as Hq.
  destruct (reset_debounce_fields w) as (_ & _ & _ & H4 & _ & H6 & H7).
  assert (∃ v, w' = restart_debounce v ∧ quiet v ∧ debounce_timer v = None
               ∧ length (timers v) = length (timers w) ∧ clock v = clock w)
    as (v & -> & Hqv & Hdv & Hlv & Hcv).
  { destruct Hk as [[unit Hu]| ->].
    - exists (append unit (reset_debounce w)).
      split; [by apply on_key_press_typed|]. done.
    - exists (pop (reset_debounce w)).
      split; [by apply on_key_press_backspace|].
      destruct (pop_fields (reset_debounce w)) as (P1 & P2 & P3).
      split; [intros id t; rewrite P1; apply Hq|].
      by rewrite P1, P2, P3. }
  rewrite restart_debounce_buffer, <- Hlv, <- Hcv.
  by apply restart_debounce_spec.
Qed.

Lemma debounce_restarts_at_last_key_witness :
  let env := quiet_env (Returns None) in
  let w := wait env (3#2)%Q
             (run env [Toggle; KeyPress (key "a"); KeyPress (key "b")] (init 0%Q)) in
  let w' := on_key_press env (key "c") w in
  (∃ t, timers w !! 0 = Some t ∧ is_waiting t = true ∧ started_at t = 0%Q)
  ∧ debounce_timer w' = Some 1
  ∧ timers w' !! 1 = Some {| started_at := clock w; interval := PAUSE_DELAY;
                             status := Waiting |}
  ∧ ∀ id t, timers w' !! id = Some t → is_waiting t = true → id = 1.
Proof.
  split; [eexists; repeat split; reflexivity|].
  refine (proj1 (debounce_restarts_at_last_key (quiet_env (Returns None)) (key "c")
           (wait (quiet_env (Returns None)) (3#2)%Q
              (run (quiet_env (Returns None))
                 [Toggle; KeyPress (key "a"); KeyPress (key "b")] (init 0%Q)))
           _ eq_refl eq_refl _) _).
  - intros id t Ht Hw. destruct id as [|id]; [reflexivity|].
    destruct id; discriminate Ht.
  - left. eexists. reflexivity.
  - vm_compute. lia.
Defined.

Lemma filter_waiting_none (ts : list Timer) :
  Forall (λ t, is_waiting t = false) ts →
  filter (λ t, is_waiting t = true) ts = [].
Proof.
  induction 1 as [|t ts Ht _ IH]; [done|].
  rewrite filter_cons_False by (rewrite Ht; done). exact IH.
Qed.

Lemma unique_waiting_count (ts : list Timer) :
  (∀ i j x y, ts !! i = Some x → ts !! j = Some y →
     is_waiting x = true → is_waiting y = true → i = j) →
  length (filter (λ t, is_waiting t = true) ts) ≤ 1.
Proof.
  induction ts as [|t ts IH]; intros Huniq; [simpl; lia|].
  destruct (is_waiting t) eqn:Hw.
  - rewrite filter_cons_True by done.
    rewrite filter_waiting_none; [simpl; lia|].
    rewrite Forall_lookup. intros j y Hy.
    destruct (is_waiting y) eqn:Hwy; [|done].
    by specialize (Huniq 0 (S j) t y eq_refl Hy Hw Hwy).
  - rewrite filter_cons_False by (rewrite Hw; done). apply IH.
    intros i j x y Hx Hy Hwx Hwy.
    assert (S i = S j) by (apply (Huniq (S i) (S j) x y); done). lia.
Qed.

(** X5. In every run, at any time, at most one timer waits. *)
Theorem at_most_one_timer_waits (env : Env) (actions : list Action) (t0 : Q) :
  waiting_count (run env actions (init t0)) ≤ 1.
Proof.
  pose proof (timer_invariant_single_live _
                (run_invariant env actions (init t0)
                   (quiet_timer_invariant _ (init_quiet t0)))) as Hlive.
  apply unique_waiting_count. intros i j x y Hx Hy Hwx Hwy.
  pose proof (Hlive i x Hx Hwx). pose proof (Hlive j y Hy Hwy). congruence.
Qed.

Example one_timer_waits_after_three_keys :
  waiting_count (run (quiet_env (Returns None))
                   [Toggle; KeyPress (key "a"); KeyPress (key "b");
                    KeyPress (key "c")] (init 0%Q)) = 1.
Proof. reflexivity. Qed.

(** ** A disabled mode *)




(** ** What the provider is asked *)

Lemma typed_unit_nonempty k unit : typed_unit k = Some unit → unit ≠ [].
Proof.
  unfold typed_unit, key_char.
  destruct k as [[c|]| | | |name]; try done.
  - destruct (truthy c) eqn:Hc; [|done]. intros [= <-]. by destruct c.
  - by intros [= <-].
Qed.

Lemma removelast_Forall {A} (P : A → Prop) l : Forall P l → Forall P (removelast l).
Proof.
  induction 1 as [|x l Hx Hl IH]; [done|]. simpl.
  destruct l; [constructor|]. by constructor.
Qed.

Lemma pop_buffer (v : World) :
  buffer (pop v) = removelast (buffer v) ∧ trace (pop v) = trace v.
Proof. unfold pop. by destruct (buffer v) eqn:H; [rewrite H|]. Qed.

Lemma toggle_trace (w : World) :
  ∃ msg, trace (toggle w)
         = trace w ++ [LogInfo msg; ToggledSignal (negb (enabled w))].
Proof.
  unfold toggle. cbv zeta.
  set (v := set_buffer [] (set_enabled (negb (enabled w)) w)).
  destruct (reset_debounce_fields v) as (H1 & _ & _ & _ & H5 & _).
  eexists. simpl. rewrite H5, H1. subst v. simpl.
  rewrite <- app_assoc. reflexivity.
Qed.

Section Calls.

Variable env : Env.

Lemma trigger_correction_full_call w :
  MIN_BUFFER_LENGTH ≤ length (buffer w) →
  Forall (λ u, u ≠ []) (buffer w) →
  Forall (full_call env) (provider_calls (trace w)) →
  Forall (full_call env) (provider_calls (trace (trigger_correction env w))).
Proof.
  intros Hlen Hne Hcalls. rewrite trigger_correction_calls.
  apply Forall_app. split; [done|].
  destruct (bool_decide (buffer w ≠ []) && enabled w); [|done].
  constructor; [|done]. split; [done|]. by exists (buffer w).
Qed.

Lemma on_key_press_capture k w :
  capture_invariant env w → capture_invariant env (on_key_press env k w).
Proof.
  intros (Hinv & Hne & Hcalls).
  pose proof (on_key_press_invariant env k w Hinv) as Hinv'.
  destruct (reset_debounce_fields w) as (_ & H2 & _ & _ & H5 & _).
  split; [done|]. clear Hinv'.
  destruct (on_key_press_handled env k w) as [?|unit _ _ Hu| | |].
  - done.
  - destruct (restart_debounce_fields (append unit (reset_debounce w)))
      as (_ & _ & -> & ->).
    simpl. rewrite H2, H5. split; [|done].
    apply Forall_app. split; [done|].
    constructor; [|done]. by apply (typed_unit_nonempty k).
  - destruct (restart_debounce_fields (pop (reset_debounce w)))
      as (_ & _ & -> & ->).
    destruct (pop_buffer (reset_debounce w)) as [-> ->].
    rewrite H2, H5. split; [|done]. by apply removelast_Forall.
  - simpl. split; [done|].
    apply trigger_correction_full_call; by rewrite ?H2, ?H5.
  - simpl. by rewrite H5.
Qed.

Lemma toggle_capture w : capture_invariant env w → capture_invariant env (toggle w).
Proof.
  intros (Hinv & Hne & Hcalls). split; [by apply toggle_invariant|].
  split.
  - unfold toggle. simpl.
    by destruct (reset_debounce_fields
                   (set_buffer [] (set_enabled (negb (enabled w)) w)))
      as (_ & -> & _).
  - destruct (toggle_trace w) as [msg ->].
    rewrite provider_calls_app. simpl. by rewrite app_nil_r.
Qed.

Lemma expire_capture id w :
  capture_invariant env w → capture_invariant env (expire env id w).
Proof.
  intros (Hinv & Hne & Hcalls).
  split; [by apply expire_invariant|].
  unfold expire. destruct (timers w !! id) as [t|] eqn:Ht; [|done].
  destruct (is_waiting t) eqn:Hw; [|done]. simpl.
  destruct (Qle_bool (deadline t) (clock w)); [|done]. simpl.
  destruct (Hinv id t Ht Hw) as [_ Hlen]. split.
  - destruct (trigger_correction_frame env w) as (_ & _ & _ & _ & [->| ->] & _);
      done.
  - by apply trigger_correction_full_call.
Qed.

Lemma step_capture a w :
  capture_invariant env w → capture_invariant env (step env w a).
Proof.
  destruct a; cbn [step].
  - apply on_key_press_capture.
  - apply toggle_capture.
  - apply (wait_ind env (capture_invariant env)); [done|].
    intros v id. apply expire_capture.
Qed.

End Calls.

(** X7. In every run, every call to the provider carries the configured
    instruction and a prompt made of the configured prefix followed by at
    least [MIN_BUFFER_LENGTH] captured units, none of them empty: neither
    the timer nor Enter ever sends a shorter text. *)
Theorem provider_gets_full_buffers_only (env : Env) (actions : list Action)
    (t0 : Q) :
  Forall (full_call env) (provider_calls (trace (run env actions (init t0)))).
Proof.
  apply (run_ind env (capture_invariant env) actions (init t0)).
  - intros w a. apply step_capture.
  - split; [apply quiet_timer_invariant, init_quiet|]. done.
Qed.

Example provider_calls_of_a_session :
  provider_calls
    (trace (run (quiet_env (Returns None))
              [Toggle; KeyPress (key "a"); Wait 5%Q; KeyPress (key "b");
               KeyPress Key_backspace; Wait 5%Q; KeyPress Key_enter;
               KeyPress (key "c"); KeyPress (key "d"); Wait 2%Q;
               KeyPress (key "e"); KeyPress Key_space; KeyPress Key_enter]
              (init 0%Q)))
  = [([], DEFAULT_PREFIX ++ lit "cd"); ([], DEFAULT_PREFIX ++ lit "e ")].
Proof. reflexivity. Qed.

(** ** Flushes in a row *)

(** X8. A flush that follows a flush, with nothing typed in between, does
    nothing, whatever the provider and the controller would do: a timer
    that fires late, or twice, sends nothing again. *)
Theorem second_flush_is_noop (env env' : Env) (w : World) :
  trigger_correction env' (trigger_correction env w) = trigger_correction env w.
Proof.
  destruct (precondition_dec w) as [[Hb He]|H].
  - apply trigger_correction_noop. left.
    by apply trigger_correction_buffer.
  - rewrite (trigger_correction_noop env w) by done.
    by apply trigger_correction_noop.
Qed.

(** ** Off and on again *)




(** ** What a flush leaves in the history *)

Lemma replacement_events_guard n text k failure :
  failure = [] ∨ (∃ msg, failure = [LogError msg]) →
  guard_writes (replacement_events n text k failure) = [true; false]
  ∧ sink_calls (replacement_events n text k failure) = take k (planned n text).
Proof.
  intros Hf. unfold replacement_events.
  change (GuardWrite true :: ?l) with ([GuardWrite true] ++ l).
  rewrite !guard_writes_app, !sink_calls_app, guard_writes_Sink, sink_calls_Sink.
  destruct Hf as [->|[msg ->]]; simpl; by rewrite app_nil_r.
Qed.



(** ** Whitespace around the typed text *)

(** X11. When the provider returns the typed text unchanged, the flush is
    silent only if that text has no whitespace at either end.  Otherwise
    the trimmed answer differs from the snapshot, the flush takes it for a
    correction and replaces: the guard is set and cleared, and a controller
    that raises nothing receives one backspace pair per unit and the
    trimmed text. *)
Theorem echo_rewrites_outer_whitespace (env : Env) (w : World) :
  buffer w ≠ [] → enabled w = true →
  let text := join (buffer w) in
  text ≠ [] → contains ERROR_TEXT_INCOMPATIBLE text = false →
  get_response env (trace w) (proofread_instruction env)
    (proofread_prefix env ++ text) = Returns (Some text) →
  let w' := trigger_correction env w in
  (strip text = text →
     sink_calls (trace w') = sink_calls (trace w)
     ∧ guard_writes (trace w') = guard_writes (trace w))
  ∧ (strip text ≠ text →
     guard_writes (trace w') = guard_writes (trace w) ++ [true; false]
     ∧ ((∀ h, kbrd_new env h = None) → (∀ h c, kbrd env h c = None) →
        sink_calls (trace w')
        = sink_calls (trace w) ++ planned (length (buffer w)) (strip text))).
Proof.
  intros Hb He text Hne Hs Hres w'. subst w'.
  rewrite trigger_correction_flush by done. fold text. rewrite Hres.
  unfold evaluate. rewrite truthy_nonempty, Hs by done. cbn [negb orb].
  cbn [request_of original_text buffer_len]. fold text. split.
  - intros Heq. rewrite bool_decide_eq_true_2 by done. simpl.
    rewrite sink_calls_app, guard_writes_app. simpl. by rewrite !app_nil_r.
  - intros Hneq. rewrite bool_decide_eq_false_2 by done. split.
    + match goal with |- context [replace_text env ?n ?c ?v] =>
        destruct (replace_text_spec env n c v) as (k & failure & _ & Hf & ->) end.
      destruct (replacement_events_guard (length (buffer w)) (strip text) k
                  failure Hf) as [Hg _].
      simpl. rewrite !guard_writes_app, Hg. simpl. by rewrite !app_nil_r.
    + intros Hn Hk. rewrite replace_text_ok by done.
      destruct (replacement_events_guard (length (buffer w)) (strip text)
                  (length (planned (length (buffer w)) (strip text))) []
                  (or_introl eq_refl)) as [_ Hsc].
      simpl. rewrite !sink_calls_app, Hsc, firstn_all. simpl.
      by rewrite !app_nil_r.
Qed.

Lemma echo_rewrites_outer_whitespace_witness :
  let env := quiet_env (Returns (Some (lit "hi "))) in
  let w := capturing [lit "h"; lit "i"; lit " "] in
  sink_calls (trace (trigger_correction env w))
  = [Press Key_backspace; Release Key_backspace;
     Press Key_backspace; Release Key_backspace;
     Press Key_backspace; Release Key_backspace; TypeText (lit "hi")].
Proof.
  refine (proj2 (proj2 (echo_rewrites_outer_whitespace
           (quiet_env (Returns (Some (lit "hi "))))
           (capturing [lit "h"; lit "i"; lit " "]) _ eq_refl _ _ _) _) _ _).
  all: done.
Defined.

(** ** A controller that cannot be built *)



(** ** Synthetic keystrokes and the guard *)

Lemma guarded_app flag a b :
  guarded flag (a ++ b) = guarded flag a ≫= λ f, guarded f b.
Proof.
  revert flag; induction a as [|e a IH]; intros flag; [done|].
  destruct e; simpl; try apply IH. by destruct flag.
Qed.

Lemma guarded_Sink calls rest :
  guarded true ((Sink <$> calls) ++ rest) = guarded true rest.
Proof. induction calls as [|c calls IH]; [done|]. exact IH. Qed.

Lemma extends_guarded_refl w : extends_guarded w w.
Proof. exists []. by rewrite app_nil_r. Qed.

Lemma extends_guarded_trans w1 w2 w3 :
  extends_guarded w1 w2 → extends_guarded w2 w3 → extends_guarded w1 w3.
Proof.
  intros (n1 & H1 & G1) (n2 & H2 & G2). exists (n1 ++ n2).
  split; [by rewrite H2, H1, app_assoc|].
  rewrite guarded_app, G1. exact G2.
Qed.

Lemma extends_guarded_same w w' : trace w' = trace w → extends_guarded w w'.
Proof. intros H. exists []. by rewrite app_nil_r. Qed.

Section Guarded.

Variable env : Env.

Lemma trigger_correction_guarded w :
  extends_guarded w (trigger_correction env w).
Proof.
  destruct (precondition_dec w) as [[Hb He]|H].
  - rewrite trigger_correction_flush by done.
    match goal with |- context [evaluate env ?r ?s ?v] =>
      destruct (evaluate_verdict env r s v) as [|msg|text k failure msg _ _ Hf]
    end.
    + by eexists [_].
    + exists [GetResponse (proofread_instruction env)
                (proofread_prefix env ++ join (buffer w)); LogError msg].
      split; [|done]. simpl. by rewrite <- app_assoc.
    + eexists (GetResponse _ _ :: LogDebug msg ::
               replacement_events (length (buffer w)) text k failure).
      split; [simpl; by rewrite <- app_assoc|].
      unfold replacement_events. cbn [guarded]. rewrite guarded_Sink.
      by destruct Hf as [->|[m ->]].
  - rewrite trigger_correction_noop by done. apply extends_guarded_refl.
Qed.

Lemma on_key_press_guarded k w : extends_guarded w (on_key_press env k w).
Proof.
  destruct (reset_debounce_fields w) as (_ & _ & _ & _ & H5 & _).
  destruct (on_key_press_handled env k w) as [?|unit _ _ _| | |].
  - apply extends_guarded_refl.
  - apply extends_guarded_same.
    by destruct (restart_debounce_fields (append unit (reset_debounce w)))
      as (_ & _ & _ & ->).
  - apply extends_guarded_same.
    destruct (restart_debounce_fields (pop (reset_debounce w)))
      as (_ & _ & _ & ->).
    by destruct (pop_buffer (reset_debounce w)) as [_ ->].
  - apply (extends_guarded_trans w (reset_debounce w));
      [by apply extends_guarded_same|].
    destruct (trigger_correction_guarded (reset_debounce w)) as (new & Hn & Hg).
    by exists new.
  - by apply extends_guarded_same.
Qed.

Lemma step_guarded a w : extends_guarded w (step env w a).
Proof.
  destruct a as [k| |dt]; cbn [step].
  - apply on_key_press_guarded.
  - destruct (toggle_trace w) as [msg Ht]. eexists. split; [exact Ht|done].
  - apply (wait_ind env (extends_guarded w)).
    + intros v t Hv. exact Hv.
    + intros v id Hv. apply (extends_guarded_trans w v); [done|].
      unfold expire. destruct (timers v !! id) as [t|];
        [|apply extends_guarded_refl].
      destruct (is_waiting t && Qle_bool (deadline t) (clock v));
        [|apply extends_guarded_refl].
      destruct (trigger_correction_guarded v) as (new & Hn & Hg).
      by exists new.
    + apply extends_guarded_refl.
Qed.

End Guarded.

(** X13. In every run, every call that reaches the injection sink is issued
    between a write that sets the is-correcting guard and the next write
    that clears it, and the last write, if any, clears it: synthetic
    keystrokes are only ever sent while the key handler ignores events. *)
Theorem sink_calls_only_under_guard (env : Env) (actions : list Action) (t0 : Q) :
  guarded false (trace (run env actions (init t0))) = Some false.
Proof.
  apply (run_ind env (λ w, guarded false (trace w) = Some false)
           actions (init t0)); [|done].
  intros w a Hw. destruct (step_guarded env a w) as (new & -> & Hnew).
  by rewrite guarded_app, Hw.
Qed.

Example guarded_rejects_a_bare_sink_call :
  guarded false [GuardWrite true; Sink (TypeText (lit "a")); GuardWrite false;
                 Sink (Press Key_backspace)] = None
  ∧ guarded false [GuardWrite true; Sink (TypeText (lit "a"))] = Some true.
Proof. done. Qed.

Example a_session_with_a_replacement :
  let w := run (quiet_env (Returns (Some (lit "Hi"))))
             [Toggle; KeyPress (key "h"); KeyPress (key "i"); Wait 2%Q;
              KeyPress (key "!")] (init 0%Q) in
  sink_calls (trace w)
  = [Press Key_backspace; Release Key_backspace;
     Press Key_backspace; Release Key_backspace; TypeText (lit "Hi")]
  ∧ guard_writes (trace w) = [true; false]
  ∧ buffer w = [lit "!"].
Proof. done. Qed.
